(** * The deferred-registration protocol of a rustdoc implementors shard

    Source: [src/implementors/core/marker/trait.Sync.js].

    The shard is a JavaScript IIFE.  It builds a local object
    [implementors] (crate name -> array of pre-rendered descriptions) and
    then either calls [window.register_implementors] with it, when that
    global is truthy, or stores it in [window.pending_implementors].

    The embedding is shallow: JavaScript values are an inductive type,
    the global object [window] is a finite map from property names to
    values, an object literal is an insertion-ordered association list
    with unique keys, and the script is a function from the
    process-wide state to the list of actions it performs itself
    together with its completion (normal, or an exception). *)

From stdpp Require Import strings gmap list.

Local Open Scope string_scope.
Local Open Scope list_scope.

(** ** Objects: string-keyed, insertion-ordered

    [implementors] only ever holds arrays of strings under crate names,
    so an object is a list of (key, array) pairs.  As in JavaScript, a
    property assignment to an existing key replaces the value in place
    and an assignment to a new key appends the property. *)

Definition Fragment : Type := string * list string.
Definition Obj : Type := list Fragment.

Fixpoint obj_get (o : Obj) (k : string) : option (list string) :=
  match o with
  | [] => None
  | (k', v) :: o' => if decide (k' = k) then Some v else obj_get o' k
  end.

Fixpoint obj_set (o : Obj) (k : string) (v : list string) : Obj :=
  match o with
  | [] => [(k, v)]
  | (k', v') :: o' =>
      if decide (k' = k) then (k, v) :: o' else (k', v') :: obj_set o' k v
  end.

Definition obj_keys (o : Obj) : list string := map fst o.

(** Number of properties of [o] named [k]. *)
Definition obj_count (o : Obj) (k : string) : nat :=
  length (filter (λ x, x = k) (obj_keys o)).

(** ** Values, truthiness, completions *)

(** [Fn] names the host functions that can be stored in a binding. *)
Inductive value (Fn : Type) : Type :=
| VUndefined
| VNull
| VBool (b : bool)
| VNum (n : Z)
| VStr (s : string)
| VObj (o : Obj)
| VFun (f : Fn).
Arguments VUndefined {Fn}.
Arguments VNull {Fn}.
Arguments VBool {Fn} b.
Arguments VNum {Fn} n.
Arguments VStr {Fn} s.
Arguments VObj {Fn} o.
Arguments VFun {Fn} f.

(** The condition of [if (...)]: ECMAScript ToBoolean (numbers are
    integers here, so there is no NaN case). *)
Definition ToBoolean {Fn} (v : value Fn) : bool :=
  match v with
  | VUndefined | VNull => false
  | VBool b => b
  | VNum n => negb (n =? 0)%Z
  | VStr s => negb (String.eqb s "")
  | VObj _ | VFun _ => true
  end.

Inductive error : Type := TypeError.

Inductive Completion (A : Type) : Type :=
| Normal (a : A)
| Throw (e : error).
Arguments Normal {A} a.
Arguments Throw {A} e.

(** ** Process-wide state

    [window] holds the global bindings; [heap] is whatever state the
    host functions own privately (for the Sink: its Registry). *)
Record World (Fn Heap : Type) : Type := mkWorld {
  window : gmap string (value Fn);
  heap : Heap
}.
Arguments mkWorld {Fn Heap} window heap.
Arguments window {Fn Heap} w.
Arguments heap {Fn Heap} w.

(** The two process-wide names the shard uses. *)
Definition register_implementors : string := "register_implementors".
Definition pending_implementors : string := "pending_implementors".

(** What the script itself does to the outside world, in order. *)
Inductive action (Fn : Type) : Type :=
| ACall (f : Fn) (arg : value Fn)
| AAssign (k : string) (v : value Fn).
Arguments ACall {Fn} f arg.
Arguments AAssign {Fn} k v.

(** ** The shard *)

Section Emitter.
Context {Fn Heap : Type}.
(** The body of every host function: an argument and the state in, a
    completion out. *)
Variable natives : Fn → value Fn → World Fn Heap → Completion (World Fn Heap).

(** [window.k]: a missing property reads as [undefined]. *)
Definition get_global (w : World Fn Heap) (k : string) : value Fn :=
  default VUndefined (window w !! k).

(** [window.k = v]. *)
Definition set_global (w : World Fn Heap) (k : string) (v : value Fn)
  : World Fn Heap :=
  mkWorld (<[k := v]> (window w)) (heap w).

(** [callee(arg)]: calling anything but a function is a TypeError. *)
Definition call (callee arg : value Fn) (w : World Fn Heap)
  : list (action Fn) * Completion (World Fn Heap) :=
  match callee with
  | VFun f => ([ACall f arg], natives f arg w)
  | _ => ([], Throw TypeError)
  end.

(** Lines 4 to 8 of the shard:
<<
    if (window.register_implementors) {
        window.register_implementors(implementors);
    } else {
        window.pending_implementors = implementors;
    }
>> *)
Definition emitter (implementors : Obj) (w : World Fn Heap)
  : list (action Fn) * Completion (World Fn Heap) :=
  if ToBoolean (get_global w register_implementors)
  then call (get_global w register_implementors) (VObj implementors) w
  else ([AAssign pending_implementors (VObj implementors)],
        Normal (set_global w pending_implementors (VObj implementors))).

(** Several shards evaluated one after the other.  The state an
    exception leaves behind is not modelled, so the sequence ends at
    the first one. *)
Fixpoint run_emitters (ms : list Obj) (w : World Fn Heap)
  : list (action Fn) * Completion (World Fn Heap) :=
  match ms with
  | [] => ([], Normal w)
  | m :: ms' =>
      match emitter m w with
      | (t, Normal w') =>
          let '(t', r) := run_emitters ms' w' in (t ++ t', r)
      | (t, Throw e) => (t, Throw e)
      end
  end.

(** The same sequence when every shard is handed straight to the host
    function [f]. *)
Fixpoint direct_calls (f : Fn) (ms : list Obj) (w : World Fn Heap)
  : list (action Fn) * Completion (World Fn Heap) :=
  match ms with
  | [] => ([], Normal w)
  | m :: ms' =>
      match natives f (VObj m) w with
      | Normal w' =>
          let '(t', r) := direct_calls f ms' w' in
          (ACall f (VObj m) :: t', r)
      | Throw e => ([ACall f (VObj m)], Throw e)
      end
  end.
End Emitter.

(** Lines 1 to 2 of the shard: [var implementors = {}] followed by the
    two property assignments. *)
Definition implementors : Obj :=
  obj_set
    (obj_set []
       "spin"
       ["impl&lt;T&gt; <a class='trait' href='https://doc.rust-lang.org/nightly/core/marker/trait.Sync.html' title='core::marker::Sync'>Sync</a> for <a class='struct' href='spin/struct.Mutex.html' title='spin::Mutex'>Mutex</a>&lt;T&gt;";
        "impl&lt;T&gt; <a class='trait' href='https://doc.rust-lang.org/nightly/core/marker/trait.Sync.html' title='core::marker::Sync'>Sync</a> for <a class='struct' href='spin/struct.RwLock.html' title='spin::RwLock'>RwLock</a>&lt;T&gt;"])
    "sos_intrusive"
    ["impl&lt;T&gt; <a class='trait' href='https://doc.rust-lang.org/nightly/core/marker/trait.Sync.html' title='core::marker::Sync'>Sync</a> for <a class='struct' href='sos_intrusive/rawlink/struct.RawLink.html' title='sos_intrusive::rawlink::RawLink'>RawLink</a>&lt;T&gt; <span class='where'>where T: <a class='trait' href='https://doc.rust-lang.org/nightly/core/marker/trait.Send.html' title='core::marker::Send'>Send</a>, T: <a class='trait' href='https://doc.rust-lang.org/nightly/core/marker/trait.Sync.html' title='core::marker::Sync'>Sync</a></span>"].

(** The whole file [trait.Sync.js]. *)
Definition trait_Sync_js {Fn Heap}
    (natives : Fn → value Fn → World Fn Heap → Completion (World Fn Heap))
    (w : World Fn Heap) : list (action Fn) * Completion (World Fn Heap) :=
  emitter natives implementors w.

(** ** The Registry Sink

    Modelled from the spec: the Sink (the page script that defines
    [window.register_implementors]) is not part of the shard.  The spec
    describes it as a process-wide collector that owns the Registry, a
    mapping from identifier to Fragment in which re-registration
    overwrites; once initialised it accepts Fragments directly, and on
    initialisation it drains what was buffered, in order, and discards
    the buffer.  [applied] is the record a test Sink keeps of the order
    in which Fragments were applied. *)

Inductive sink_entry : Type := RegisterImplementors.

Record SinkState : Type := mkSink {
  registry : Obj;
  applied : list Fragment
}.

Definition SinkWorld : Type := World sink_entry SinkState.

(** Modelled from the spec: the Sink applies one Fragment (section 3,
    Registry: overwrite on the same identifier). *)
Definition sink_apply (s : SinkState) (fr : Fragment) : SinkState :=
  mkSink (obj_set (registry s) fr.1 fr.2) (applied s ++ [fr]).

(** Modelled from the spec: the Sink accepts a mapping, one Fragment
    after the other in the mapping's own order. *)
Definition sink_accept (imp : Obj) (s : SinkState) : SinkState :=
  foldl sink_apply s imp.

(** Modelled from the spec: the body of the entry point
    [register_implementors]. *)
Definition sink_natives (f : sink_entry) (arg : value sink_entry)
    (w : SinkWorld) : Completion SinkWorld :=
  match f, arg with
  | RegisterImplementors, VObj imp =>
      Normal (mkWorld (window w) (sink_accept imp (heap w)))
  | RegisterImplementors, _ => Normal w
  end.

(** Modelled from the spec: Sink initialisation (section 4.2): the
    entry point appears, the pending storage is drained through it and
    then discarded. *)
Definition sink_init (w : SinkWorld) : Completion SinkWorld :=
  let w1 := set_global w register_implementors (VFun RegisterImplementors) in
  match sink_natives RegisterImplementors
          (get_global w1 pending_implementors) w1 with
  | Normal w2 =>
      Normal (mkWorld (delete pending_implementors (window w2)) (heap w2))
  | Throw e => Throw e
  end.

(** ** The page: shards and the Sink in any order *)

Inductive event : Type :=
| Emit (implementors : Obj)
| SinkInit.

Definition step (e : event) (w : SinkWorld) : Completion SinkWorld :=
  match e with
  | Emit m => (emitter sink_natives m w).2
  | SinkInit => sink_init w
  end.

Fixpoint run (es : list event) (w : SinkWorld) : Completion SinkWorld :=
  match es with
  | [] => Normal w
  | e :: es' =>
      match step e w with
      | Normal w' => run es' w'
      | Throw x => Throw x
      end
  end.

(** A freshly loaded page: no global set, empty Registry. *)
Definition fresh_page : SinkWorld := mkWorld ∅ (mkSink [] []).

(** The mappings emitted in a schedule, in order. *)
Fixpoint emitted (es : list event) : list Obj :=
  match es with
  | [] => []
  | Emit m :: es' => m :: emitted es'
  | SinkInit :: es' => emitted es'
  end.

Fixpoint count_init (es : list event) : nat :=
  match es with
  | [] => 0
  | Emit _ :: es' => count_init es'
  | SinkInit :: es' => S (count_init es')
  end.

(** Number of shards evaluated before the first Sink initialisation. *)
Fixpoint emits_before_init (es : list event) : nat :=
  match es with
  | [] => 0
  | Emit _ :: es' => S (emits_before_init es')
  | SinkInit :: _ => 0
  end.

(** The registry of a completion, when there is one. *)
Definition final_registry (r : Completion SinkWorld) : option Obj :=
  match r with
  | Normal w => Some (registry (heap w))
  | Throw _ => None
  end.

Definition final_applied (r : Completion SinkWorld) : option (list Fragment) :=
  match r with
  | Normal w => Some (applied (heap w))
  | Throw _ => None
  end.

(** The scenario of the spec, section 8. *)
Definition pkgA : Obj := [("pkgA", ["implA1"])].
Definition pkgB : Obj := [("pkgB", ["implB1"])].
Definition pkgC : Obj := [("pkgC", ["implC1"])].
Definition scenario : list event := [Emit pkgA; Emit pkgB; SinkInit; Emit pkgC].

(** What the Sink's initialisation finds in the pending slot. *)
Definition drained (w : SinkWorld) : Obj :=
  match window w !! pending_implementors with
  | Some (VObj imp) => imp
  | _ => []
  end.

(** A page on which some other script has set
    [window.register_implementors] to the number 1. *)
Definition clobbered_page : SinkWorld :=
  mkWorld {[ register_implementors := VNum 1 ]} (mkSink [] []).

(** The page once the Sink has initialised and nothing else has run. *)
Definition ready_page : SinkWorld :=
  mkWorld {[ register_implementors := VFun RegisterImplementors ]} (mkSink [] []).

(** The identifiers buffered in the pending slot. *)
Definition buffered_ids {Fn Heap} (w : World Fn Heap) : list string :=
  match get_global w pending_implementors with
  | VObj slot => obj_keys slot
  | _ => []
  end.

(** ** The statements of section 8 of the spec, as predicates *)

(** All identifiers emitted in a schedule are distinct. *)
Definition distinct_identifiers (es : list event) : Prop :=
  NoDup (obj_keys (concat (emitted es))).

(** "The final Registry contains exactly the N Fragments keyed by their
    identifiers." *)
Definition registry_holds_all (es : list event) : Prop :=
  ∃ r, final_registry (run es fresh_page) = Some r ∧
       ∀ id descr,
         obj_get r id = Some descr ↔
         ∃ m, m ∈ emitted es ∧ obj_get m id = Some descr.

(** "Post-drain application order is A then B", with both in the
    Registry. *)
Definition applied_in_order (A B : Fragment) (r : Completion SinkWorld) : Prop :=
  ∃ w, r = Normal w ∧
       (∃ l1 l2 l3, applied (heap w) = l1 ++ A :: l2 ++ B :: l3) ∧
       obj_get (registry (heap w)) A.1 = Some A.2 ∧
       obj_get (registry (heap w)) B.1 = Some B.2.

(** The three places the single initialisation can take among two
    registrations. *)
Definition interleavings (m1 m2 : Obj) : list (list event) :=
  [ [SinkInit; Emit m1; Emit m2];
    [Emit m1; SinkInit; Emit m2];
    [Emit m1; Emit m2; SinkInit] ].

(** ** Equality up to the contents of the description strings *)

(** Same identifiers in the same order, the same number of
    descriptions under each; the descriptions themselves are free. *)
Definition same_payload_shape (o1 o2 : Obj) : Prop :=
  Forall2 (λ a b : Fragment, a.1 = b.1 ∧ length a.2 = length b.2) o1 o2.

Definition value_sim {Fn} (v1 v2 : value Fn) : Prop :=
  match v1, v2 with
  | VObj o1, VObj o2 => same_payload_shape o1 o2
  | _, _ => v1 = v2
  end.

Definition window_sim {Fn} (g1 g2 : gmap string (value Fn)) : Prop :=
  ∀ k, option_Forall2 value_sim (g1 !! k) (g2 !! k).

Definition world_sim {Fn Heap} (R : Heap → Heap → Prop)
    (w1 w2 : World Fn Heap) : Prop :=
  window_sim (window w1) (window w2) ∧ R (heap w1) (heap w2).

Definition action_sim {Fn} (a1 a2 : action Fn) : Prop :=
  match a1, a2 with
  | ACall f v1, ACall g v2 => f = g ∧ value_sim v1 v2
  | AAssign k v1, AAssign k' v2 => k = k' ∧ value_sim v1 v2
  | _, _ => False
  end.

Definition completion_sim {A} (R : A → A → Prop) (c1 c2 : Completion A) : Prop :=
  match c1, c2 with
  | Normal a, Normal b => R a b
  | Throw e, Throw e' => e = e'
  | _, _ => False
  end.

Definition sink_state_sim (s1 s2 : SinkState) : Prop :=
  same_payload_shape (registry s1) (registry s2) ∧
  same_payload_shape (applied s1) (applied s2).

(** The shard's mapping with every description blanked. *)
Definition blanked (o : Obj) : Obj :=
  map (λ fr : Fragment, (fr.1, map (λ _, "") fr.2)) o.

(** ** The object construction of lines 1 to 2, for any crates

    The shard is generated: [var implementors = {}] is followed by one
    statement [implementors[name] = descriptions] per crate.
    [build_implementors] runs such a sequence of assignments;
    [implementors] above is the run for the two crates of the source. *)
Definition build_from (o : Obj) (assigns : list Fragment) : Obj :=
  foldl (λ acc fr, obj_set acc fr.1 fr.2) o assigns.

Definition build_implementors (assigns : list Fragment) : Obj :=
  build_from [] assigns.

(** A read [o[k]] of an object built from [{}]: the own property when
    there is one ([obj_get] looks at own properties only); otherwise
    the read goes on to the prototype, [Object.prototype], whose
    contents are not modelled. *)
Inductive property_read : Type :=
| OwnValue (v : list string)
| FromPrototype.

Definition obj_read (o : Obj) (k : string) : property_read :=
  match obj_get o k with
  | Some v => OwnValue v
  | None => FromPrototype
  end.

(** The names for which [implementors[name] = array] on an object built
    from [{}] is what [obj_set] does, the creation or update of an own
    property kept in insertion order: every name except [__proto__],
    whose assignment runs the prototype setter and creates no property,
    and except the integer-like names, which JavaScript lists before
    all others in numeric order.  Names starting with a digit are left
    out as a whole; a crate name is an identifier and never starts
    with one. *)
Definition is_digit (c : Ascii.ascii) : bool :=
  Nat.leb 48 (Ascii.nat_of_ascii c) && Nat.leb (Ascii.nat_of_ascii c) 57.

Definition ordinary_name (k : string) : bool :=
  negb (String.eqb k "__proto__") &&
  match k with
  | EmptyString => true
  | String c _ => negb (is_digit c)
  end.

Definition ordinary_names (assigns : list Fragment) : Prop :=
  Forall (λ fr : Fragment, ordinary_name fr.1 = true) assigns.

(** The generated script as a whole: build the object, then dispatch.
    [trait_Sync_js] is this script for the two crates of the source. *)
Definition shard_js {Fn Heap}
    (natives : Fn → value Fn → World Fn Heap → Completion (World Fn Heap))
    (assigns : list Fragment) (w : World Fn Heap)
    : list (action Fn) * Completion (World Fn Heap) :=
  emitter natives (build_implementors assigns) w.

(** Values of [window.register_implementors] that [if] treats as
    absent (JavaScript has further falsy values, such as NaN, that
    [value] does not have). *)
Definition falsy_values {Fn} : list (value Fn) :=
  [VUndefined; VNull; VBool false; VNum 0; VStr ""].

(** * Properties *)

(** ** Objects *)

Lemma obj_get_set (o : Obj) (k k' : string) (v : list string) :
  obj_get (obj_set o k v) k' = if decide (k = k') then Some v else obj_get o k'.
Proof.
  induction o as [|[k0 v0] o IH]; simpl.
  - repeat case_decide; congruence.
  - repeat (case_decide; simpl); try congruence.
Qed.

Lemma obj_get_None (o : Obj) (k : string) :
  obj_get o k = None ↔ k ∉ obj_keys o.
Proof.
  unfold obj_keys. induction o as [|[k0 v0] o IH]; simpl.
  - split; [intros _; apply not_elem_of_nil | done].
  - rewrite not_elem_of_cons. case_decide; subst.
    + split; [done | intros [? _]; done].
    + rewrite IH. split; [intros ?; split; [congruence | done] | intros [_ ?]; done].
Qed.

Lemma obj_get_Some_elem (o : Obj) (k : string) (v : list string) :
  obj_get o k = Some v → (k, v) ∈ o.
Proof.
  induction o as [|[k0 v0] o IH]; simpl; [done |].
  case_decide; subst.
  - intros [= ->]. apply list_elem_of_here.
  - intros H'. apply list_elem_of_further. auto.
Qed.

Lemma obj_elem_get (o : Obj) (k : string) (v : list string) :
  NoDup (obj_keys o) → (k, v) ∈ o → obj_get o k = Some v.
Proof.
  unfold obj_keys. induction o as [|[k0 v0] o IH]; simpl.
  - intros _ H'. by apply elem_of_nil in H'.
  - intros Hnd Hin. apply NoDup_cons in Hnd as [Hk0 Hnd].
    apply elem_of_cons in Hin as [[= -> ->] | Hin].
    + by rewrite decide_True.
    + rewrite decide_False; [by apply IH |].
      intros ->. apply Hk0. apply list_elem_of_fmap. by exists (k, v).
Qed.

(** Assigning a property whose name is new appends it. *)
Lemma obj_set_fresh (o : Obj) (k : string) (v : list string) :
  k ∉ obj_keys o → obj_set o k v = o ++ [(k, v)].
Proof.
  unfold obj_keys. induction o as [|[k0 v0] o IH]; simpl; [done |].
  rewrite not_elem_of_cons. intros [Hne Hk].
  rewrite decide_False by congruence. by rewrite IH.
Qed.

Lemma obj_keys_set (o : Obj) (k : string) (v : list string) :
  obj_keys (obj_set o k v) =
    if decide (k ∈ obj_keys o) then obj_keys o else obj_keys o ++ [k].
Proof.
  unfold obj_keys. induction o as [|[k0 v0] o IH]; simpl.
  - done.
  - destruct (decide (k0 = k)) as [->|Hne]; simpl.
    + rewrite decide_True; [done | apply list_elem_of_here].
    + rewrite IH. destruct (decide (k ∈ map fst o)) as [Hin|Hnin].
      * rewrite decide_True; [done | by apply list_elem_of_further].
      * rewrite decide_False; [done |].
        rewrite not_elem_of_cons. split; [congruence | done].
Qed.

Lemma obj_set_NoDup (o : Obj) (k : string) (v : list string) :
  NoDup (obj_keys o) → NoDup (obj_keys (obj_set o k v)).
Proof.
  intros Hnd. rewrite obj_keys_set. case_decide; [done |].
  apply NoDup_app. split_and!; [done | | apply NoDup_singleton].
  intros x Hx Hx'. apply list_elem_of_singleton in Hx'. by subst.
Qed.

Lemma obj_count_absent (o : Obj) (k : string) :
  k ∉ obj_keys o → obj_count o k = 0.
Proof.
  unfold obj_count. generalize (obj_keys o) as l. clear o.
  induction l as [|x l IH]; [done |].
  rewrite not_elem_of_cons. intros [Hne Hk].
  rewrite filter_cons_False by congruence. auto.
Qed.

Lemma obj_count_NoDup (o : Obj) (k : string) :
  NoDup (obj_keys o) → k ∈ obj_keys o → obj_count o k = 1.
Proof.
  unfold obj_keys. induction o as [|[k0 v0] o IH]; simpl; intros Hnd Hin.
  - by apply elem_of_nil in Hin.
  - apply NoDup_cons in Hnd as [Hx Hnd]. unfold obj_count. simpl.
    destruct (decide (k0 = k)) as [->|Hne].
    + rewrite filter_cons_True by done. simpl. f_equal.
      by apply (obj_count_absent o k).
    + rewrite filter_cons_False by done. apply IH; [done |].
      apply elem_of_cons in Hin as [->|]; done.
Qed.

(** ** The shard alone, for any host functions *)

Section EmitterFacts.
Context {Fn Heap : Type}.
Variable natives : Fn → value Fn → World Fn Heap → Completion (World Fn Heap).

Lemma emitter_absent (m : Obj) (w : World Fn Heap) :
  ToBoolean (get_global w register_implementors) = false →
  emitter natives m w =
    ([AAssign pending_implementors (VObj m)],
     Normal (set_global w pending_implementors (VObj m))).
Proof. intros H. unfold emitter. by rewrite H. Qed.

Lemma emitter_ready (m : Obj) (w : World Fn Heap) (f : Fn) :
  get_global w register_implementors = VFun f →
  emitter natives m w = ([ACall f (VObj m)], natives f (VObj m) w).
Proof. intros H. unfold emitter. by rewrite H. Qed.

Lemma get_global_set_ne (w : World Fn Heap) (k k' : string) (v : value Fn) :
  k ≠ k' → get_global (set_global w k v) k' = get_global w k'.
Proof. intros H. unfold get_global, set_global. simpl. by rewrite lookup_insert_ne. Qed.

Lemma get_global_set_eq (w : World Fn Heap) (k : string) (v : value Fn) :
  get_global (set_global w k v) k = v.
Proof. unfold get_global, set_global. simpl. by rewrite lookup_insert_eq. Qed.

Lemma set_global_set (w : World Fn Heap) (k : string) (v v' : value Fn) :
  set_global (set_global w k v) k v' = set_global w k v'.
Proof. unfold set_global. simpl. by rewrite insert_insert_eq. Qed.

Lemma get_global_VFun (w : World Fn Heap) (k : string) (f : Fn) :
  window w !! k = Some (VFun f) → get_global w k = VFun f.
Proof. intros H. unfold get_global. by rewrite H. Qed.

(** Outside the two cases of the protocol: a truthy entry point that is
    not a function makes the call throw. *)
Lemma emitter_not_callable (m : Obj) (w : World Fn Heap) (o : Obj) :
  get_global w register_implementors = VObj o →
  emitter natives m w = ([], Throw TypeError).
Proof. intros H. unfold emitter. by rewrite H. Qed.

(** While the entry point is absent, a run of shards leaves the state
    of the last one only. *)
Lemma run_emitters_absent (ms : list Obj) (w : World Fn Heap) :
  ToBoolean (get_global w register_implementors) = false →
  (run_emitters natives ms w).2 =
    Normal (match last ms with
            | Some m => set_global w pending_implementors (VObj m)
            | None => w
            end).
Proof.
  revert w. induction ms as [|m ms IH]; intros w Hw; [done |].
  simpl. rewrite (emitter_absent m w Hw).
  destruct (run_emitters natives ms _) as [t' r] eqn:E.
  simpl. change r with (t', r).2. rewrite <- E. rewrite IH.
  - destruct ms as [|m' ms]; [done |].
    rewrite last_cons_cons.
    destruct (last (m' :: ms)) eqn:El; [by rewrite set_global_set|].
    by apply last_None in El.
  - rewrite get_global_set_ne; done.
Qed.

(** C2 (amended): when the Sink's entry point is absent, the shard
    stores its mapping in the pending slot, which is created on first
    use; afterwards the slot holds exactly that mapping, so all of the
    shard's own Fragments are buffered together, while whatever an
    earlier shard had stored there is replaced. *)
Theorem pending_slot_written_when_sink_absent (m : Obj) (w : World Fn Heap) :
  ToBoolean (get_global w register_implementors) = false →
  ∃ w',
    emitter natives m w = ([AAssign pending_implementors (VObj m)], Normal w') ∧
    w' = set_global w pending_implementors (VObj m) ∧
    window w' !! pending_implementors = Some (VObj m) ∧
    (∀ id, obj_get m id =
       match get_global w' pending_implementors with
       | VObj slot => obj_get slot id
       | _ => None
       end).
Proof.
  intros Hw. eexists. split; [by apply emitter_absent |].
  split; [done |]. split.
  - simpl. by rewrite lookup_insert_eq.
  - intros id. by rewrite get_global_set_eq.
Qed.

(** C4: starting from any state in which the Sink's entry point is
    absent, after any number of shards have run the pending slot holds
    one mapping, that of the most recent shard (or what it held before
    when no shard ran), and the rest of the state is as it was: each
    shard replaces the whole slot. *)
Theorem pending_slot_holds_last_mapping (ms : list Obj) (w : World Fn Heap) :
  ToBoolean (get_global w register_implementors) = false →
  ∃ w',
    (run_emitters natives ms w).2 = Normal w' ∧
    w' = match last ms with
         | Some m => set_global w pending_implementors (VObj m)
         | None => w
         end ∧
    window w' !! pending_implementors =
      match last ms with
      | Some m => Some (VObj m)
      | None => window w !! pending_implementors
      end ∧
    heap w' = heap w ∧
    ∀ k, k ≠ pending_implementors → window w' !! k = window w !! k.
Proof.
  intros Hw. eexists. split; [by apply run_emitters_absent |].
  split; [done |]. destruct (last ms) as [m|]; [|done].
  simpl. split_and!; [by rewrite lookup_insert_eq | done |].
  intros k Hk. by rewrite lookup_insert_ne.
Qed.

(** C5: when the entry point is a function, the shard calls it once,
    with its whole mapping as the argument, and does nothing else: the
    state it leaves is the state that call returns, and it assigns
    nothing. *)
Theorem ready_invokes_entry_point_once (m : Obj) (w : World Fn Heap) (f : Fn) :
  get_global w register_implementors = VFun f →
  emitter natives m w = ([ACall f (VObj m)], natives f (VObj m) w).
Proof. apply emitter_ready. Qed.

(** C6 (amended): the shard completes normally exactly when the entry
    point is absent (a falsy binding), whatever the pending slot
    holds, or is a function whose call returns.  The absent branch is
    total; with a function the shard's completion is the call's, so it
    adds no failure of its own; with a truthy entry point that is not a
    function the call throws a TypeError, which the shard does not
    handle. *)
Theorem registration_outcome (m : Obj) (w : World Fn Heap) :
  ((∃ t w', emitter natives m w = (t, Normal w')) ↔
   (ToBoolean (get_global w register_implementors) = false ∨
    ∃ f, get_global w register_implementors = VFun f ∧
         ∃ w1, natives f (VObj m) w = Normal w1)) ∧
  (ToBoolean (get_global w register_implementors) = false →
   emitter natives m w =
     ([AAssign pending_implementors (VObj m)],
      Normal (set_global w pending_implementors (VObj m)))) ∧
  (∀ f, get_global w register_implementors = VFun f →
   (emitter natives m w).2 = natives f (VObj m) w) ∧
  (ToBoolean (get_global w register_implementors) = true →
   (∀ f, get_global w register_implementors ≠ VFun f) →
   emitter natives m w = ([], Throw TypeError)).
Proof.
  split_and!.
  - split.
    + intros (t & w' & Hrun).
      destruct (ToBoolean (get_global w register_implementors)) eqn:Ht;
        [right | by left].
      unfold emitter in Hrun. rewrite Ht in Hrun.
      destruct (get_global w register_implementors) as [| | | | | |f];
        simpl in Hrun; try discriminate Hrun.
      exists f. split; [done |]. exists w'. congruence.
    + intros [Habs | (f & Hf & w1 & Hcall)].
      * rewrite emitter_absent by done. eauto.
      * rewrite (emitter_ready m w f Hf), Hcall. eauto.
  - apply emitter_absent.
  - intros f Hf. by rewrite (emitter_ready m w f Hf).
  - intros Ht Hnf. unfold emitter. rewrite Ht.
    destruct (get_global w register_implementors) as [| | | | | |f];
      try done.
    by destruct (Hnf f).
Qed.

(** C7: if the entry point is a function that returns and leaves its
    own binding alone, then after any number of shards the entry point
    is still that function, and every one of the shards was handed to
    it directly: the run is a sequence of calls and contains no
    assignment to the pending slot. *)
Theorem ready_is_permanent (f : Fn) (ms : list Obj) (w : World Fn Heap) :
  (∀ v w0, ∃ w1, natives f v w0 = Normal w1 ∧
     window w1 !! register_implementors = window w0 !! register_implementors) →
  window w !! register_implementors = Some (VFun f) →
  ∃ w',
    run_emitters natives ms w = (map (λ m, ACall f (VObj m)) ms, Normal w') ∧
    run_emitters natives ms w = direct_calls natives f ms w ∧
    window w' !! register_implementors = Some (VFun f).
Proof.
  intros Hsink. revert w. induction ms as [|m ms IH]; intros w Hw.
  - exists w. done.
  - simpl. rewrite (emitter_ready m w f) by by apply get_global_VFun.
    destruct (Hsink (VObj m) w) as (w1 & Hcall & Hkeep). rewrite Hcall.
    destruct (IH w1) as (w' & Hrun & Hdirect & Hw'); [congruence |].
    exists w'. rewrite <- Hdirect, Hrun. done.
Qed.

(** C10: with the entry point present, the state after the shard is
    the state the called function returns, so a binding that function
    leaves alone is unchanged, the pending slot included, and the shard
    assigns nothing itself; with the entry point absent, the shard
    changes the pending slot and nothing else. *)
Theorem registration_frame (m : Obj) (w : World Fn Heap) :
  (∀ f, get_global w register_implementors = VFun f →
     (emitter natives m w).2 = natives f (VObj m) w ∧
     (∀ k v, AAssign k v ∉ (emitter natives m w).1) ∧
     (∀ k w', (∀ w1, natives f (VObj m) w = Normal w1 →
                 window w1 !! k = window w !! k) →
              (emitter natives m w).2 = Normal w' →
              window w' !! k = window w !! k)) ∧
  (ToBoolean (get_global w register_implementors) = false →
     ∃ w', emitter natives m w =
             ([AAssign pending_implementors (VObj m)], Normal w') ∧
           heap w' = heap w ∧
           ∀ k, k ≠ pending_implementors → window w' !! k = window w !! k).
Proof.
  split.
  - intros f Hf. rewrite (emitter_ready m w f Hf). simpl. split_and!.
    + done.
    + intros k v Hin. apply list_elem_of_singleton in Hin. discriminate.
    + intros k w' Hframe Hcall. by apply Hframe.
  - intros Hw. rewrite emitter_absent by done. eexists. split_and!; [done..|].
    intros k Hk. simpl. by rewrite lookup_insert_ne.
Qed.

End EmitterFacts.

(** ** The Sink *)

Lemma sink_accept_app (a b : Obj) (s : SinkState) :
  sink_accept (a ++ b) s = sink_accept b (sink_accept a s).
Proof. unfold sink_accept. apply foldl_app. Qed.

Lemma sink_accept_applied (imp : Obj) (s : SinkState) :
  applied (sink_accept imp s) = applied s ++ imp.
Proof.
  revert s. induction imp as [|fr imp IH]; intros s; simpl.
  - by rewrite app_nil_r.
  - rewrite IH. simpl. by rewrite <- app_assoc.
Qed.

Lemma sink_accept_get (imp : Obj) (s : SinkState) (k : string) :
  NoDup (obj_keys imp) →
  obj_get (registry (sink_accept imp s)) k =
    match obj_get imp k with
    | Some v => Some v
    | None => obj_get (registry s) k
    end.
Proof.
  unfold obj_keys. revert s.
  induction imp as [|[k0 v0] imp IH]; intros s Hnd; simpl; [done |].
  apply NoDup_cons in Hnd as [Hk0 Hnd]. rewrite IH by done. simpl.
  rewrite obj_get_set. case_decide; subst; [|done].
  change (k ∉ obj_keys imp) in Hk0.
  apply obj_get_None in Hk0. by rewrite Hk0.
Qed.

Lemma sink_accept_other (imp : Obj) (s : SinkState) (k : string) :
  k ∉ obj_keys imp →
  obj_get (registry (sink_accept imp s)) k = obj_get (registry s) k.
Proof.
  unfold obj_keys. revert s.
  induction imp as [|[k0 v0] imp IH]; intros s; simpl; [done |].
  rewrite not_elem_of_cons. intros [Hne Hk]. rewrite IH by done. simpl.
  rewrite obj_get_set. by rewrite decide_False.
Qed.

Lemma sink_accept_fresh (imp : Obj) (s : SinkState) :
  NoDup (obj_keys (registry s ++ imp)) →
  registry (sink_accept imp s) = registry s ++ imp.
Proof.
  unfold obj_keys. revert s.
  induction imp as [|[k0 v0] imp IH]; intros s Hnd; simpl.
  - by rewrite app_nil_r.
  - assert (Hfresh : k0 ∉ obj_keys (registry s)).
    { rewrite map_app in Hnd. apply NoDup_app in Hnd as (_ & Hdisj & _).
      intros Hin. apply (Hdisj k0 Hin). apply list_elem_of_here. }
    rewrite IH; simpl; rewrite (obj_set_fresh _ _ _ Hfresh).
    + by rewrite <- app_assoc.
    + by rewrite <- app_assoc.
Qed.

Lemma sink_accept_NoDup (imp : Obj) (s : SinkState) :
  NoDup (obj_keys (registry s)) →
  NoDup (obj_keys (registry (sink_accept imp s))).
Proof.
  revert s. induction imp as [|[k0 v0] imp IH]; intros s Hnd; simpl; [done |].
  apply IH. simpl. by apply obj_set_NoDup.
Qed.

(** ** The page *)

Lemma run_app (a b : list event) (w : SinkWorld) :
  run (a ++ b) w =
    match run a w with
    | Normal w' => run b w'
    | Throw x => Throw x
    end.
Proof.
  revert w. induction a as [|e a IH]; intros w; simpl; [done |].
  destruct (step e w); [apply IH | done].
Qed.

Lemma run_map_Emit (ms : list Obj) (w : SinkWorld) :
  run (map Emit ms) w = (run_emitters sink_natives ms w).2.
Proof.
  revert w. induction ms as [|m ms IH]; intros w; simpl; [done |].
  destruct (emitter sink_natives m w) as [t [w'|x]]; simpl; [|done].
  rewrite IH. by destruct (run_emitters sink_natives ms w').
Qed.

(** Before the Sink exists only the last shard's mapping survives. *)
Lemma run_emits_absent (ms : list Obj) (w : SinkWorld) :
  ToBoolean (get_global w register_implementors) = false →
  run (map Emit ms) w =
    Normal (match last ms with
            | Some m => set_global w pending_implementors (VObj m)
            | None => w
            end).
Proof. intros Hw. rewrite run_map_Emit. by apply run_emitters_absent. Qed.

(** Once the Sink exists every shard's mapping reaches the Registry. *)
Lemma run_emits_ready (ms : list Obj) (w : SinkWorld) :
  window w !! register_implementors = Some (VFun RegisterImplementors) →
  run (map Emit ms) w =
    Normal (mkWorld (window w) (sink_accept (concat ms) (heap w))).
Proof.
  revert w. induction ms as [|m ms IH]; intros w Hw; simpl.
  - by destruct w.
  - rewrite (emitter_ready sink_natives m w RegisterImplementors)
      by by apply get_global_VFun.
    simpl. rewrite IH by done. simpl. by rewrite sink_accept_app.
Qed.

Lemma sink_init_spec (w : SinkWorld) :
  sink_init w =
    Normal (mkWorld
              (delete pending_implementors
                 (<[register_implementors := VFun RegisterImplementors]> (window w)))
              (sink_accept (drained w) (heap w))).
Proof.
  unfold sink_init, drained, get_global, set_global. simpl.
  rewrite lookup_insert_ne by done.
  destruct (window w !! pending_implementors) as [[]|]; simpl; done.
Qed.

Lemma schedule_split (es : list event) :
  count_init es = 1 →
  ∃ pre post,
    es = map Emit pre ++ SinkInit :: map Emit post ∧
    emitted es = pre ++ post ∧
    emits_before_init es = length pre.
Proof.
  induction es as [|[m|] es IH]; simpl; intros Hc; [done | |].
  - destruct (IH Hc) as (pre & post & -> & Hem & Hb).
    exists (m :: pre), post. simpl. by rewrite Hem, Hb.
  - exists [], (emitted es). simpl. split_and!; [|done..].
    f_equal. clear IH. induction es as [|[m|] es IH]; simpl in *; [done | | done].
    f_equal. auto.
Qed.

(** The Fragments that reach the Registry in a schedule with one
    initialisation: the last mapping buffered and everything emitted
    afterwards. *)
Lemma run_schedule (pre post : list Obj) :
  ∃ w,
    run (map Emit pre ++ SinkInit :: map Emit post) fresh_page = Normal w ∧
    window w !! register_implementors = Some (VFun RegisterImplementors) ∧
    window w !! pending_implementors = None ∧
    heap w = sink_accept (concat (option_list (last pre) ++ post)) (mkSink [] []).
Proof.
  rewrite run_app, run_emits_absent by done. simpl.
  rewrite sink_init_spec.
  rewrite run_emits_ready.
  - eexists. split; [done |]. simpl. split_and!.
    + rewrite lookup_delete_ne by done. by rewrite lookup_insert_eq.
    + by rewrite lookup_delete_eq.
    + rewrite concat_app, sink_accept_app. f_equal.
      unfold drained. destruct (last pre) as [m|]; simpl.
      * rewrite lookup_insert_eq. by rewrite app_nil_r.
      * done.
  - simpl. rewrite lookup_delete_ne by done. by rewrite lookup_insert_eq.
Qed.

(** ** Schedules of shards and one Sink initialisation *)

Lemma concat_keys_NoDup (ms : list Obj) (m : Obj) :
  m ∈ ms → NoDup (obj_keys (concat ms)) → NoDup (obj_keys m).
Proof.
  unfold obj_keys. induction ms as [|m0 ms IH]; simpl; intros Hin Hnd.
  - by apply elem_of_nil in Hin.
  - rewrite map_app in Hnd. apply NoDup_app in Hnd as (Hm0 & _ & Hms).
    apply elem_of_cons in Hin as [->|Hin]; auto.
Qed.

Lemma elem_of_concat (ms : list Obj) (fr : Fragment) :
  fr ∈ concat ms ↔ ∃ m, m ∈ ms ∧ fr ∈ m.
Proof.
  induction ms as [|m0 ms IH]; simpl.
  - split; [intros H; by apply elem_of_nil in H |].
    intros (m & H & _). by apply elem_of_nil in H.
  - rewrite elem_of_app, IH. split.
    + intros [H | (m & Hm & H)].
      * exists m0. split; [apply list_elem_of_here | done].
      * exists m. split; [by apply list_elem_of_further | done].
    + intros (m & Hm & H). apply elem_of_cons in Hm as [-> | Hm]; eauto.
Qed.

Lemma concat_get (ms : list Obj) (id : string) (descr : list string) :
  NoDup (obj_keys (concat ms)) →
  obj_get (concat ms) id = Some descr ↔
  ∃ m, m ∈ ms ∧ obj_get m id = Some descr.
Proof.
  intros Hnd. split.
  - intros Hget. apply obj_get_Some_elem in Hget.
    apply elem_of_concat in Hget as (m & Hin & Hm).
    exists m. split; [done |].
    apply obj_elem_get; [by eapply concat_keys_NoDup | done].
  - intros (m & Hm & Hget). apply obj_elem_get; [done |].
    apply elem_of_concat. exists m. split; [done |].
    by apply obj_get_Some_elem.
Qed.

(** C1 (amended): for every number of registrations and every schedule
    of them with the single Sink initialisation in which at most one
    registration precedes the initialisation, the final Registry
    contains exactly the emitted Fragments keyed by their identifiers,
    assuming all identifiers are distinct. *)
Theorem registry_complete_single_buffered (es : list event) :
  count_init es = 1 →
  (emits_before_init es ≤ 1)%nat →
  distinct_identifiers es →
  registry_holds_all es ∧
  final_registry (run es fresh_page) = Some (concat (emitted es)).
Proof.
  intros Hone Hpre Hnd. unfold distinct_identifiers in Hnd.
  destruct (schedule_split es Hone) as (pre & post & -> & Hem & Hlen).
  rewrite Hlen in Hpre. rewrite Hem in *.
  destruct (run_schedule pre post) as (w & Hrun & _ & _ & Hheap).
  assert (Hlast : option_list (last pre) = pre).
  { destruct pre as [|m [|m' pre]]; simpl in *; [done | done | lia]. }
  rewrite Hlast in Hheap.
  assert (Hreg : registry (heap w) = concat (pre ++ post)).
  { rewrite Hheap. by rewrite sink_accept_fresh. }
  unfold registry_holds_all. rewrite Hrun. simpl. rewrite Hreg.
  split; [|done]. eexists. split; [done |].
  intros id descr. rewrite Hem. by apply concat_get.
Qed.

(** C3 (amended): for any two Fragments A and B of the mapping that the
    pending slot holds when the Sink initialises, which is the mapping
    of the last shard evaluated while UNINITIALIZED, if A precedes B in
    that mapping then the drain applies A before B, and both are
    present in the Registry; the drain applies that mapping and nothing
    else. *)
Theorem drain_preserves_mapping_order
    (pre : list Obj) (l1 l2 l3 : Obj) (A B : Fragment) :
  NoDup (obj_keys (l1 ++ A :: l2 ++ B :: l3)) →
  applied_in_order A B
    (run (map Emit pre ++ [Emit (l1 ++ A :: l2 ++ B :: l3); SinkInit]) fresh_page) ∧
  final_applied
    (run (map Emit pre ++ [Emit (l1 ++ A :: l2 ++ B :: l3); SinkInit]) fresh_page)
    = Some (l1 ++ A :: l2 ++ B :: l3).
Proof.
  intros Hnd. set (m := l1 ++ A :: l2 ++ B :: l3) in *.
  destruct (run_schedule (pre ++ [m]) []) as (w & Hrun & _ & _ & Hheap).
  rewrite map_app, <- app_assoc in Hrun. simpl in Hrun.
  rewrite last_snoc in Hheap. simpl in Hheap. rewrite !app_nil_r in Hheap.
  rewrite Hrun. unfold applied_in_order. simpl.
  assert (Happ : applied (heap w) = m) by (by rewrite Hheap, sink_accept_applied).
  assert (Hreg : registry (heap w) = m) by (by rewrite Hheap, sink_accept_fresh).
  split; [|by rewrite Happ].
  exists w. split; [done |]. rewrite Hreg. split_and!.
  - by exists l1, l2, l3.
  - apply obj_elem_get; [done |]. destruct A. subst m. set_solver.
  - apply obj_elem_get; [done |]. destruct B. subst m. set_solver.
Qed.

(** C8: when two registrations carry the same identifier, wherever the
    Sink's initialisation falls among them, the final Registry has
    exactly one entry for that identifier and it holds the Fragment of
    the later registration. *)
Theorem last_write_wins
    (m1 m2 : Obj) (id : string) (d1 d2 : list string) (es : list event) :
  obj_get m1 id = Some d1 →
  obj_get m2 id = Some d2 →
  NoDup (obj_keys m2) →
  es ∈ interleavings m1 m2 →
  ∃ r, final_registry (run es fresh_page) = Some r ∧
       obj_get r id = Some d2 ∧
       obj_count r id = 1.
Proof.
  intros H1 H2 Hnd Hes.
  assert (Hcount : ∀ s : SinkState,
            NoDup (obj_keys (registry s)) →
            obj_get (registry (sink_accept m2 s)) id = Some d2 ∧
            obj_count (registry (sink_accept m2 s)) id = 1).
  { intros s Hs.
    assert (Hg : obj_get (registry (sink_accept m2 s)) id = Some d2)
      by (by rewrite sink_accept_get, H2).
    split; [done |]. apply obj_count_NoDup; [by apply sink_accept_NoDup |].
    destruct (decide (id ∈ obj_keys (registry (sink_accept m2 s)))); [done |].
    apply obj_get_None in n. congruence. }
  assert (Hschedule : ∃ pre post,
            es = map Emit pre ++ SinkInit :: map Emit post ∧
            ∃ ms, option_list (last pre) ++ post = ms ++ [m2]).
  { unfold interleavings in Hes.
    repeat (apply elem_of_cons in Hes as [-> | Hes]).
    - exists [], [m1; m2]. split; [done |]. by exists [m1].
    - exists [m1], [m2]. split; [done |]. by exists [m1].
    - exists [m1; m2], []. split; [done |]. by exists [].
    - by apply elem_of_nil in Hes. }
  destruct Hschedule as (pre & post & -> & ms & Hms).
  destruct (run_schedule pre post) as (w & Hrun & _ & _ & Hheap).
  rewrite Hms, concat_app, sink_accept_app in Hheap. simpl in Hheap.
  rewrite app_nil_r in Hheap.
  rewrite Hrun. simpl. eexists. split; [done |]. rewrite Hheap.
  apply Hcount. apply sink_accept_NoDup. simpl. apply NoDup_nil_2.
Qed.

(** ** Independence from the description strings *)

Lemma same_payload_shape_refl (o : Obj) : same_payload_shape o o.
Proof. unfold same_payload_shape. induction o; constructor; auto. Qed.

Lemma blanked_shape (o : Obj) : same_payload_shape o (blanked o).
Proof.
  unfold same_payload_shape, blanked.
  induction o as [|[k v] o IH]; simpl; constructor; [|done].
  simpl. by rewrite length_map.
Qed.

Lemma value_sim_refl {Fn} (v : value Fn) : value_sim v v.
Proof. destruct v; simpl; try done. apply same_payload_shape_refl. Qed.

Lemma value_sim_ToBoolean {Fn} (v1 v2 : value Fn) :
  value_sim v1 v2 → ToBoolean v1 = ToBoolean v2.
Proof. destruct v1, v2; simpl; intros H; try done; by inversion H. Qed.

Lemma window_sim_refl {Fn} (g : gmap string (value Fn)) : window_sim g g.
Proof.
  intros k. destruct (g !! k); constructor. apply value_sim_refl.
Qed.

Lemma get_global_sim {Fn Heap} (R : Heap → Heap → Prop)
    (w1 w2 : World Fn Heap) (k : string) :
  world_sim R w1 w2 → value_sim (get_global w1 k) (get_global w2 k).
Proof.
  intros [Hwin _]. unfold get_global. specialize (Hwin k).
  destruct Hwin; simpl; done.
Qed.

Lemma set_global_sim {Fn Heap} (R : Heap → Heap → Prop)
    (w1 w2 : World Fn Heap) (k : string) (v1 v2 : value Fn) :
  world_sim R w1 w2 → value_sim v1 v2 →
  world_sim R (set_global w1 k v1) (set_global w2 k v2).
Proof.
  intros [Hwin Hheap] Hv. split; [|done]. intros k'. simpl.
  destruct (decide (k = k')) as [->|Hne].
  - rewrite !lookup_insert_eq. by constructor.
  - rewrite !lookup_insert_ne by done. apply Hwin.
Qed.

Lemma obj_set_shape (o1 o2 : Obj) (k : string) (v1 v2 : list string) :
  same_payload_shape o1 o2 → length v1 = length v2 →
  same_payload_shape (obj_set o1 k v1) (obj_set o2 k v2).
Proof.
  unfold same_payload_shape. intros Ho Hv.
  induction Ho as [|[k1 d1] [k2 d2] o1 o2 [Hk Hd] Ho IH]; simpl in *.
  - by repeat constructor.
  - subst k2. case_decide; constructor; done.
Qed.

Lemma sink_accept_shape (imp1 imp2 : Obj) (s1 s2 : SinkState) :
  same_payload_shape imp1 imp2 → sink_state_sim s1 s2 →
  sink_state_sim (sink_accept imp1 s1) (sink_accept imp2 s2).
Proof.
  intros Himp. revert s1 s2.
  induction Himp as [|a b imp1 imp2 [Hk Hd] Himp IH]; intros s1 s2 Hs; [done |].
  simpl. apply IH. destruct Hs as [Hreg Happ]. split; simpl.
  - rewrite Hk. by apply obj_set_shape.
  - apply Forall2_app; [done |]. by repeat constructor.
Qed.

(** The Sink of the spec does not look into the descriptions either. *)
Lemma sink_natives_payload_blind (f : sink_entry) (v1 v2 : value sink_entry)
    (u1 u2 : SinkWorld) :
  value_sim v1 v2 → world_sim sink_state_sim u1 u2 →
  completion_sim (world_sim sink_state_sim)
    (sink_natives f v1 u1) (sink_natives f v2 u2).
Proof.
  intros Hv [Hwin Hheap]. destruct f.
  destruct v1, v2; simpl in *; try done.
  split; [done |]. by apply sink_accept_shape.
Qed.

(** C9: take two evaluations of a shard whose mappings, and whose
    initial states, differ only in the contents of description strings,
    with host functions that do not depend on those contents.  Then
    both take the same branch, perform the same actions on the same
    bindings, and complete in states that again differ only in the
    contents of description strings. *)
Theorem payload_blind_dispatch {Fn Heap : Type}
    (natives : Fn → value Fn → World Fn Heap → Completion (World Fn Heap))
    (R : Heap → Heap → Prop) (m1 m2 : Obj) (w1 w2 : World Fn Heap) :
  (∀ f v1 v2 u1 u2, value_sim v1 v2 → world_sim R u1 u2 →
     completion_sim (world_sim R) (natives f v1 u1) (natives f v2 u2)) →
  same_payload_shape m1 m2 →
  world_sim R w1 w2 →
  ToBoolean (get_global w1 register_implementors) =
    ToBoolean (get_global w2 register_implementors) ∧
  Forall2 action_sim (emitter natives m1 w1).1 (emitter natives m2 w2).1 ∧
  completion_sim (world_sim R) (emitter natives m1 w1).2 (emitter natives m2 w2).2.
Proof.
  intros Hnat Hm Hw.
  pose proof (get_global_sim R w1 w2 register_implementors Hw) as Hv.
  split; [by apply value_sim_ToBoolean |].
  assert (Habs : Forall2 (@action_sim Fn)
            [AAssign pending_implementors (VObj m1)]
            [AAssign pending_implementors (VObj m2)] ∧
          completion_sim (world_sim R)
            (Normal (set_global w1 pending_implementors (VObj m1)))
            (Normal (set_global w2 pending_implementors (VObj m2)))).
  { split; [by repeat constructor |]. by apply set_global_sim. }
  unfold emitter.
  destruct (get_global w1 register_implementors) as [| |b1|n1|s1|o1|f1],
           (get_global w2 register_implementors) as [| |b2|n2|s2|o2|f2];
    simpl in Hv; try discriminate Hv; try done.
  - injection Hv as <-. destruct b1; simpl; [by split; constructor | done].
  - injection Hv as <-. simpl. destruct (n1 =? 0)%Z; simpl;
      [done | by split; constructor].
  - injection Hv as <-. simpl. destruct (String.eqb s1 ""); simpl;
      [done | by split; constructor].
  - injection Hv as <-. simpl. split; [by repeat constructor |].
    by apply Hnat.
Qed.

(** * Concrete runs *)

(** The shard of the source on a fresh page fills the pending slot. *)
Lemma pending_slot_written_when_sink_absent_witness :
  ToBoolean (get_global fresh_page register_implementors) = false ∧
  ∃ w' : SinkWorld,
    emitter sink_natives implementors fresh_page =
      ([AAssign pending_implementors (VObj implementors)], Normal w') ∧
    w' = set_global fresh_page pending_implementors (VObj implementors) ∧
    window w' !! pending_implementors = Some (VObj implementors) ∧
    (∀ id, obj_get implementors id =
       match get_global w' pending_implementors with
       | VObj slot => obj_get slot id
       | _ => None
       end).
Proof.
  split; [reflexivity |].
  apply (pending_slot_written_when_sink_absent sink_natives implementors fresh_page).
  reflexivity.
Defined.

(** C2, as stated, fails: a second shard evaluated before the Sink
    exists leaves only its own Fragment in the pending slot; the one
    buffered by the first shard is gone. *)
Lemma earlier_buffered_fragment_replaced :
  ∃ w1 w2 : SinkWorld,
    (emitter sink_natives pkgA fresh_page).2 = Normal w1 ∧
    ToBoolean (get_global w1 register_implementors) = false ∧
    buffered_ids w1 = ["pkgA"] ∧
    (emitter sink_natives pkgB w1).2 = Normal w2 ∧
    buffered_ids w2 = ["pkgB"] ∧
    ("pkgA" ∉ buffered_ids w2) ∧
    window w2 = {[ pending_implementors := VObj pkgB ]}.
Proof.
  eexists _, _. split; [reflexivity |]. split; [reflexivity |].
  split; [reflexivity |]. split; [reflexivity |]. split; [reflexivity |].
  split; [|reflexivity].
  intros H. apply list_elem_of_singleton in H. discriminate H.
Qed.

(** Two shards on a fresh page: the slot ends with the second mapping. *)
Lemma pending_slot_holds_last_mapping_witness :
  ToBoolean (get_global fresh_page register_implementors) = false ∧
  ∃ w' : SinkWorld,
    (run_emitters sink_natives [pkgA; implementors] fresh_page).2 = Normal w' ∧
    w' = set_global fresh_page pending_implementors (VObj implementors) ∧
    window w' !! pending_implementors = Some (VObj implementors) ∧
    heap w' = heap fresh_page ∧
    ∀ k, k ≠ pending_implementors → window w' !! k = window fresh_page !! k.
Proof.
  split; [reflexivity |].
  apply (pending_slot_holds_last_mapping sink_natives [pkgA; implementors] fresh_page).
  reflexivity.
Defined.

(** The shard of the source on a page whose Sink is ready. *)
Lemma ready_invokes_entry_point_once_witness :
  get_global ready_page register_implementors = VFun RegisterImplementors ∧
  emitter sink_natives implementors ready_page =
    ([ACall RegisterImplementors (VObj implementors)],
     sink_natives RegisterImplementors (VObj implementors) ready_page).
Proof.
  split; [reflexivity |].
  apply (ready_invokes_entry_point_once sink_natives implementors ready_page).
  reflexivity.
Defined.

(** C6, as stated, fails: on a page where something else set
    [window.register_implementors] to 1 the shard throws a TypeError;
    it does not complete, makes no call and buffers nothing. *)
Lemma registration_throws_on_non_callable :
  get_global clobbered_page register_implementors = VNum 1 ∧
  emitter sink_natives implementors clobbered_page = ([], Throw TypeError) ∧
  ¬ ∃ t w', emitter sink_natives implementors clobbered_page = (t, Normal w').
Proof.
  split; [reflexivity |]. split; [reflexivity |].
  intros (t & w' & H). discriminate H.
Qed.

(** The shard of the source completes on a ready page and on a fresh
    one, and throws on the page whose entry point is a number. *)
Lemma registration_outcome_witness :
  (∃ t w', emitter sink_natives implementors ready_page = (t, Normal w')) ∧
  (∃ t w', emitter sink_natives implementors fresh_page = (t, Normal w')) ∧
  emitter sink_natives implementors clobbered_page = ([], Throw TypeError).
Proof.
  split_and!.
  - apply (proj1 (registration_outcome sink_natives implementors ready_page)).
    right. exists RegisterImplementors. split; [reflexivity |].
    eexists. reflexivity.
  - apply (proj1 (registration_outcome sink_natives implementors fresh_page)).
    left. reflexivity.
  - apply (proj2 (proj2 (proj2
             (registration_outcome sink_natives implementors clobbered_page)))).
    + reflexivity.
    + intros f H. discriminate H.
Defined.

(** Two shards after the Sink of the spec has initialised. *)
Lemma ready_is_permanent_witness :
  ∃ w' : SinkWorld,
    run_emitters sink_natives [pkgA; pkgB] ready_page =
      (map (λ m, ACall RegisterImplementors (VObj m)) [pkgA; pkgB], Normal w') ∧
    run_emitters sink_natives [pkgA; pkgB] ready_page =
      direct_calls sink_natives RegisterImplementors [pkgA; pkgB] ready_page ∧
    window w' !! register_implementors = Some (VFun RegisterImplementors).
Proof.
  apply (ready_is_permanent sink_natives RegisterImplementors [pkgA; pkgB] ready_page).
  - intros v w0. destruct v; eexists; split; reflexivity.
  - reflexivity.
Defined.

(** The frame of the shard of the source, on a ready page and on a fresh
    one. *)
Lemma registration_frame_witness :
  ((emitter sink_natives implementors ready_page).2 =
     sink_natives RegisterImplementors (VObj implementors) ready_page ∧
   (∀ k v, AAssign k v ∉ (emitter sink_natives implementors ready_page).1) ∧
   (∀ k w', (∀ w1, sink_natives RegisterImplementors (VObj implementors) ready_page
                     = Normal w1 →
               window w1 !! k = window ready_page !! k) →
            (emitter sink_natives implementors ready_page).2 = Normal w' →
            window w' !! k = window ready_page !! k)) ∧
  (∃ w', emitter sink_natives implementors fresh_page =
           ([AAssign pending_implementors (VObj implementors)], Normal w') ∧
         heap w' = heap fresh_page ∧
         ∀ k, k ≠ pending_implementors → window w' !! k = window fresh_page !! k).
Proof.
  split.
  - apply (proj1 (registration_frame sink_natives implementors ready_page)
             RegisterImplementors).
    reflexivity.
  - apply (proj2 (registration_frame sink_natives implementors fresh_page)).
    reflexivity.
Defined.

(** C1, as stated, fails on the scenario of the spec: two shards are
    evaluated before the Sink initialises, and the Fragment of the
    first never reaches the Registry. *)
Lemma registry_incomplete_when_two_buffered :
  count_init scenario = 1 ∧
  distinct_identifiers scenario ∧
  final_registry (run scenario fresh_page) = Some (pkgB ++ pkgC) ∧
  ¬ registry_holds_all scenario.
Proof.
  split; [reflexivity |]. split; [by compute_done |]. split; [reflexivity |].
  intros (r & Hr & Hall). injection Hr as <-.
  destruct (Hall "pkgA" ["implA1"]) as [_ Hback].
  assert (Hget : obj_get (pkgB ++ pkgC) "pkgA" = Some ["implA1"]).
  { apply Hback. exists pkgA. split; [apply list_elem_of_here | reflexivity]. }
  discriminate Hget.
Qed.

(** One shard before the initialisation and one after it. *)
Lemma registry_complete_single_buffered_witness :
  count_init [Emit implementors; SinkInit; Emit pkgC] = 1 ∧
  (emits_before_init [Emit implementors; SinkInit; Emit pkgC] ≤ 1)%nat ∧
  distinct_identifiers [Emit implementors; SinkInit; Emit pkgC] ∧
  registry_holds_all [Emit implementors; SinkInit; Emit pkgC] ∧
  final_registry (run [Emit implementors; SinkInit; Emit pkgC] fresh_page)
    = Some (implementors ++ pkgC).
Proof.
  assert (Hd : distinct_identifiers [Emit implementors; SinkInit; Emit pkgC])
    by compute_done.
  split; [reflexivity |]. split; [exact (le_n 1) |]. split; [exact Hd |].
  apply (registry_complete_single_buffered
           [Emit implementors; SinkInit; Emit pkgC]);
    [reflexivity | exact (le_n 1) | exact Hd].
Defined.

(** C3, as stated, fails: A is buffered, then B is buffered, and the
    drain applies B alone; A is neither applied nor in the Registry. *)
Lemma drain_drops_earlier_fragment :
  (run_emitters sink_natives [pkgA] fresh_page).2
    = Normal (set_global fresh_page pending_implementors (VObj pkgA)) ∧
  final_applied (run [Emit pkgA; Emit pkgB; SinkInit] fresh_page) = Some pkgB ∧
  final_registry (run [Emit pkgA; Emit pkgB; SinkInit] fresh_page) = Some pkgB ∧
  ¬ applied_in_order ("pkgA", ["implA1"]) ("pkgB", ["implB1"])
      (run [Emit pkgA; Emit pkgB; SinkInit] fresh_page).
Proof.
  split; [reflexivity |]. split; [reflexivity |]. split; [reflexivity |].
  intros (w & Hw & _ & HA & _). injection Hw as <-. discriminate HA.
Qed.

(** A shard carrying pkgA then pkgB, evaluated after another shard and
    before the initialisation. *)
Lemma drain_preserves_mapping_order_witness :
  NoDup (obj_keys ([] ++ ("pkgA", ["implA1"]) :: [] ++ ("pkgB", ["implB1"]) :: [])) ∧
  applied_in_order ("pkgA", ["implA1"]) ("pkgB", ["implB1"])
    (run (map Emit [pkgC] ++
          [Emit ([] ++ ("pkgA", ["implA1"]) :: [] ++ ("pkgB", ["implB1"]) :: []);
           SinkInit]) fresh_page) ∧
  final_applied
    (run (map Emit [pkgC] ++
          [Emit ([] ++ ("pkgA", ["implA1"]) :: [] ++ ("pkgB", ["implB1"]) :: []);
           SinkInit]) fresh_page)
    = Some ([] ++ ("pkgA", ["implA1"]) :: [] ++ ("pkgB", ["implB1"]) :: []).
Proof.
  assert (Hd : NoDup (obj_keys
            ([] ++ ("pkgA", ["implA1"]) :: [] ++ ("pkgB", ["implB1"]) :: [])))
    by compute_done.
  split; [exact Hd |].
  apply (drain_preserves_mapping_order [pkgC] [] [] []
           ("pkgA", ["implA1"]) ("pkgB", ["implB1"])).
  exact Hd.
Defined.

(** The same identifier registered before and after the
    initialisation. *)
Lemma last_write_wins_witness :
  ∃ r, final_registry
         (run [Emit [("pkgA", ["old"])]; SinkInit; Emit [("pkgA", ["new"])]]
            fresh_page) = Some r ∧
       obj_get r "pkgA" = Some ["new"] ∧
       obj_count r "pkgA" = 1.
Proof.
  apply (last_write_wins [("pkgA", ["old"])] [("pkgA", ["new"])] "pkgA"
           ["old"] ["new"]).
  - reflexivity.
  - reflexivity.
  - compute_done.
  - apply list_elem_of_further, list_elem_of_here.
Defined.

(** The shard of the source against itself with every description
    blanked. *)
Lemma payload_blind_dispatch_witness :
  same_payload_shape implementors (blanked implementors) ∧
  ToBoolean (get_global ready_page register_implementors) =
    ToBoolean (get_global ready_page register_implementors) ∧
  Forall2 action_sim
    (emitter sink_natives implementors ready_page).1
    (emitter sink_natives (blanked implementors) ready_page).1 ∧
  completion_sim (world_sim sink_state_sim)
    (emitter sink_natives implementors ready_page).2
    (emitter sink_natives (blanked implementors) ready_page).2.
Proof.
  split; [apply blanked_shape |].
  apply (payload_blind_dispatch sink_natives sink_state_sim
           implementors (blanked implementors) ready_page ready_page).
  - apply sink_natives_payload_blind.
  - apply blanked_shape.
  - split; [apply window_sim_refl |].
    split; apply same_payload_shape_refl.
Defined.

(** * Further properties of the shard *)

(** ** Building the object (lines 1 to 2) *)

Lemma build_from_snoc (o : Obj) (assigns : list Fragment) (fr : Fragment) :
  build_from o (assigns ++ [fr]) = obj_set (build_from o assigns) fr.1 fr.2.
Proof. unfold build_from. by rewrite foldl_app. Qed.

Lemma build_from_get (o : Obj) (assigns : list Fragment) (k : string) :
  obj_get (build_from o assigns) k =
    match obj_get (reverse assigns) k with
    | Some v => Some v
    | None => obj_get o k
    end.
Proof.
  induction assigns as [|[k0 v0] assigns IH] using rev_ind; [done |].
  rewrite build_from_snoc, reverse_snoc, obj_get_set. simpl.
  case_decide; [done | apply IH].
Qed.

Lemma build_from_NoDup (o : Obj) (assigns : list Fragment) :
  NoDup (obj_keys o) → NoDup (obj_keys (build_from o assigns)).
Proof.
  intros Ho. induction assigns as [|fr assigns IH] using rev_ind; [done |].
  rewrite build_from_snoc. by apply obj_set_NoDup.
Qed.

Lemma build_from_keys (o : Obj) (assigns : list Fragment) (k : string) :
  k ∈ obj_keys (build_from o assigns) ↔ k ∈ obj_keys o ∨ k ∈ map fst assigns.
Proof.
  induction assigns as [|fr assigns IH] using rev_ind.
  - simpl. split; [by left | intros [H | H]; [done | by apply elem_of_nil in H]].
  - rewrite build_from_snoc, obj_keys_set, map_app, elem_of_app. simpl.
    rewrite list_elem_of_singleton. case_decide as Hin.
    + rewrite IH. split; [tauto |].
      intros [H | [H | ->]]; [tauto | tauto | by apply IH].
    + rewrite elem_of_app, list_elem_of_singleton, IH. tauto.
Qed.

Lemma build_from_fresh (o : Obj) (assigns : list Fragment) :
  NoDup (obj_keys (o ++ assigns)) → build_from o assigns = o ++ assigns.
Proof.
  unfold obj_keys. induction assigns as [|[k0 v0] assigns IH] using rev_ind.
  - intros _. simpl. by rewrite app_nil_r.
  - rewrite app_assoc, map_app. intros Hnd.
    apply NoDup_app in Hnd as (Hnd & Hdisj & _).
    rewrite build_from_snoc, IH by done. simpl.
    apply obj_set_fresh.
    intros Hin. apply (Hdisj k0 Hin). apply list_elem_of_here.
Qed.

(** The own properties of the built list: the last pair of each name. *)
Lemma build_implementors_get (assigns : list Fragment) (k : string) :
  obj_get (build_implementors assigns) k = obj_get (reverse assigns) k ∧
  (k ∉ map fst assigns → obj_get (build_implementors assigns) k = None) ∧
  (∀ before v after,
     assigns = before ++ (k, v) :: after → k ∉ map fst after →
     obj_get (build_implementors assigns) k = Some v).
Proof.
  assert (Hget : obj_get (build_implementors assigns) k
                 = obj_get (reverse assigns) k).
  { unfold build_implementors. rewrite build_from_get.
    by destruct (obj_get (reverse assigns) k). }
  split; [done |]. split.
  - intros Hk. rewrite Hget. apply obj_get_None. unfold obj_keys.
    intros Hin. apply Hk. apply list_elem_of_fmap in Hin as (fr & -> & Hfr).
    apply list_elem_of_fmap. exists fr. split; [done |].
    by apply elem_of_reverse.
  - intros before v after -> Hafter. rewrite Hget.
    rewrite reverse_app, reverse_cons, <- app_assoc. simpl.
    assert (Hrev : ∀ l : Obj, k ∉ map fst l → ∀ rest,
              obj_get (reverse l ++ rest) k = obj_get rest k).
    { intros l Hl rest. assert (Hn : k ∉ obj_keys (reverse l)).
      { unfold obj_keys. intros Hin.
        apply list_elem_of_fmap in Hin as (fr & -> & Hfr).
        apply Hl, list_elem_of_fmap. exists fr. split; [done |].
        by apply elem_of_reverse. }
      clear Hl. revert Hn. unfold obj_keys.
      induction (reverse l) as [|[k1 v1] l' IHl]; simpl; [done |].
      rewrite not_elem_of_cons. intros [Hne Hl'].
      rewrite decide_False by congruence. auto. }
    rewrite Hrev by done. simpl. by rewrite decide_True.
Qed.

(** X1: let the assigned names be ordinary.  In the object built by
    the assignments, a name that was assigned is an own property
    holding the array of the last assignment to it; a name that was
    never assigned is no own property, so reading it goes on to
    [Object.prototype]. *)
Theorem built_object_lookup (assigns : list Fragment) (k : string) :
  ordinary_names assigns →
  (∀ before v after,
     assigns = before ++ (k, v) :: after → k ∉ map fst after →
     obj_read (build_implementors assigns) k = OwnValue v) ∧
  (k ∉ map fst assigns →
     obj_read (build_implementors assigns) k = FromPrototype).
Proof.
  intros _. unfold obj_read.
  destruct (build_implementors_get assigns k) as (_ & Habsent & Hlast).
  split.
  - intros before v after Heq Hafter. by rewrite (Hlast before v after).
  - intros Hk. by rewrite Habsent.
Qed.

(** X2: let the assigned names be ordinary.  The built object never has
    two own properties of the same name, and its own property names
    are exactly the names assigned. *)
Theorem built_object_keys (assigns : list Fragment) :
  ordinary_names assigns →
  NoDup (obj_keys (build_implementors assigns)) ∧
  (∀ k, k ∈ obj_keys (build_implementors assigns) ↔ k ∈ map fst assigns) ∧
  (∀ k, (obj_count (build_implementors assigns) k ≤ 1)%nat).
Proof.
  intros _.
  assert (Hnd : NoDup (obj_keys (build_implementors assigns)))
    by (apply build_from_NoDup; apply NoDup_nil_2).
  split; [done |]. split.
  - intros k. unfold build_implementors. rewrite build_from_keys.
    split; [intros [H | H]; [by apply elem_of_nil in H | done] | by right].
  - intros k. destruct (decide (k ∈ obj_keys (build_implementors assigns))).
    + by rewrite obj_count_NoDup.
    + rewrite obj_count_absent by done. lia.
Qed.

(** X3: when the assigned names are ordinary and every one is assigned
    once, the own properties of the built object are the crates in the
    order of the assignments, each with its array. *)
Theorem built_object_distinct (assigns : list Fragment) :
  ordinary_names assigns →
  NoDup (map fst assigns) → build_implementors assigns = assigns.
Proof. intros _ Hnd. unfold build_implementors. by rewrite build_from_fresh. Qed.

(** The two crates of the source. *)
Lemma built_object_distinct_witness :
  ordinary_names implementors ∧
  NoDup (map fst implementors) ∧
  build_implementors implementors = implementors.
Proof.
  assert (Ho : ordinary_names implementors) by (repeat constructor).
  assert (Hd : NoDup (map fst implementors)) by compute_done.
  split; [exact Ho |]. split; [exact Hd |].
  apply (built_object_distinct implementors); [exact Ho | exact Hd].
Defined.

(** The built object for the two crates of the source. *)
Lemma built_object_keys_witness :
  ordinary_names implementors ∧
  NoDup (obj_keys (build_implementors implementors)) ∧
  (∀ k, k ∈ obj_keys (build_implementors implementors)
        ↔ k ∈ map fst implementors) ∧
  (∀ k, (obj_count (build_implementors implementors) k ≤ 1)%nat).
Proof.
  assert (Ho : ordinary_names implementors) by (repeat constructor).
  split; [exact Ho |]. apply (built_object_keys implementors). exact Ho.
Defined.

(** X4: assigning to a name the object already has replaces the array
    in place: the property names and their order are unchanged, the
    name now reads as the new array and every other name as before;
    and two assignments to one name in a row leave what the second
    alone leaves. *)
Theorem assignment_in_place (o : Obj) (k : string) (v : list string) :
  k ∈ obj_keys o →
  obj_keys (obj_set o k v) = obj_keys o ∧
  length (obj_set o k v) = length o ∧
  obj_get (obj_set o k v) k = Some v ∧
  (∀ k', k' ≠ k → obj_get (obj_set o k v) k' = obj_get o k') ∧
  (∀ v', obj_set (obj_set o k v) k v' = obj_set o k v').
Proof.
  intros Hin. split_and!.
  - rewrite obj_keys_set. by rewrite decide_True.
  - assert (Hk : length (obj_keys (obj_set o k v)) = length (obj_keys o))
      by (rewrite obj_keys_set; by rewrite decide_True).
    unfold obj_keys in Hk. by rewrite !length_map in Hk.
  - rewrite obj_get_set. by rewrite decide_True.
  - intros k' Hne. rewrite obj_get_set. by rewrite decide_False.
  - intros v'. clear Hin. induction o as [|[k0 v0] o IH]; simpl.
    + by rewrite decide_True.
    + destruct (decide (k0 = k)) as [->|Hne]; simpl.
      * by rewrite decide_True.
      * rewrite decide_False by done. by rewrite IH.
Qed.

Lemma assignment_in_place_witness :
  "spin" ∈ obj_keys implementors ∧
  obj_keys (obj_set implementors "spin" []) = obj_keys implementors ∧
  length (obj_set implementors "spin" []) = length implementors ∧
  obj_get (obj_set implementors "spin" []) "spin" = Some [] ∧
  (∀ k', k' ≠ "spin" →
     obj_get (obj_set implementors "spin" []) k' = obj_get implementors k') ∧
  (∀ v', obj_set (obj_set implementors "spin" []) "spin" v'
         = obj_set implementors "spin" v').
Proof.
  assert (Hin : "spin" ∈ obj_keys implementors) by apply list_elem_of_here.
  split; [exact Hin |]. apply (assignment_in_place implementors "spin" []).
  exact Hin.
Defined.

(** ** The dispatch (lines 4 to 8) *)

Section DispatchEdges.
Context {Fn Heap : Type}.
Variable natives : Fn → value Fn → World Fn Heap → Completion (World Fn Heap).

(** X5: when [window.register_implementors] is truthy but not a
    function, the shard throws a TypeError and does nothing else: no
    call is made and the mapping is not stored in the pending slot. *)
Theorem emitter_throws_on_truthy_non_function (m : Obj) (w : World Fn Heap) :
  ToBoolean (get_global w register_implementors) = true →
  (∀ f, get_global w register_implementors ≠ VFun f) →
  emitter natives m w = ([], Throw TypeError).
Proof.
  intros Ht Hnf. unfold emitter. rewrite Ht.
  destruct (get_global w register_implementors); try done.
  by destruct (Hnf f).
Qed.

(** X6: the shard stores its mapping in the pending slot whenever
    [window.register_implementors] reads as undefined (missing or set
    so), null, false, 0 or the empty string: the test is truthiness,
    not existence of the binding, so a binding that exists with such a
    value does not stop the buffering. *)
Theorem emitter_buffers_on_falsy (m : Obj) (w : World Fn Heap) :
  get_global w register_implementors ∈ @falsy_values Fn →
  emitter natives m w =
    ([AAssign pending_implementors (VObj m)],
     Normal (set_global w pending_implementors (VObj m))).
Proof.
  unfold falsy_values. intros Hin. apply emitter_absent.
  repeat (apply elem_of_cons in Hin as [-> | Hin]); try done.
  by apply elem_of_nil in Hin.
Qed.

(** X7: shards alone never leave UNINITIALIZED.  From a state where the
    entry point is absent, any number of shards complete, each one
    performs the single assignment to the pending slot and no call, and
    the entry point is still absent afterwards. *)
Theorem shards_never_make_ready (ms : list Obj) (w : World Fn Heap) :
  ToBoolean (get_global w register_implementors) = false →
  ∃ w',
    run_emitters natives ms w =
      (map (λ m, AAssign pending_implementors (VObj m)) ms, Normal w') ∧
    get_global w' register_implementors = get_global w register_implementors ∧
    ToBoolean (get_global w' register_implementors) = false.
Proof.
  revert w. induction ms as [|m ms IH]; intros w Hw.
  - exists w. done.
  - simpl. rewrite (emitter_absent natives m w Hw).
    assert (Hkeep : get_global (set_global w pending_implementors (VObj m))
                      register_implementors
                    = get_global w register_implementors)
      by (by apply get_global_set_ne).
    destruct (IH (set_global w pending_implementors (VObj m)))
      as (w' & Hrun & Hsame & Hfalse); [by rewrite Hkeep |].
    exists w'. rewrite Hrun. simpl. split_and!; [done | congruence | done].
Qed.

End DispatchEdges.

(** A page on which something else took the name: the entry point is
    an object, not a function. *)
Lemma emitter_throws_on_truthy_non_function_witness :
  let w : SinkWorld :=
    mkWorld {[ register_implementors := VObj pkgA ]} (mkSink [] []) in
  ToBoolean (get_global w register_implementors) = true ∧
  (∀ f, get_global w register_implementors ≠ VFun f) ∧
  emitter sink_natives implementors w = ([], Throw TypeError).
Proof.
  intros w.
  assert (Hnf : ∀ f, get_global w register_implementors ≠ VFun f)
    by (intros f H; discriminate H).
  split; [reflexivity |]. split; [exact Hnf |].
  apply (emitter_throws_on_truthy_non_function sink_natives implementors w);
    [reflexivity | exact Hnf].
Defined.

(** Three shards on a fresh page. *)
Lemma shards_never_make_ready_witness :
  ∃ w' : SinkWorld,
    run_emitters sink_natives [pkgA; implementors; pkgC] fresh_page =
      (map (λ m, AAssign pending_implementors (VObj m))
         [pkgA; implementors; pkgC], Normal w') ∧
    get_global w' register_implementors
      = get_global fresh_page register_implementors ∧
    ToBoolean (get_global w' register_implementors) = false.
Proof.
  apply (shards_never_make_ready sink_natives [pkgA; implementors; pkgC] fresh_page).
  reflexivity.
Defined.

(** ** The script as a whole (lines 1 to 8) *)

(** The file of the source is the generated script for its two crates. *)
Lemma trait_Sync_js_is_shard {Fn Heap}
    (natives : Fn → value Fn → World Fn Heap → Completion (World Fn Heap))
    (w : World Fn Heap) :
  trait_Sync_js natives w = shard_js natives implementors w.
Proof. reflexivity. Qed.

(** X8: what a script writes can be read back.  Let the assigned names
    be ordinary.  The script hands over one object with unique own
    property names in which every assigned name holds the array of the
    last assignment to it and no other name is an own property:
    evaluated while the entry point is absent it leaves that object in
    the pending slot, and evaluated while the entry point is a
    function it passes that object to the function. *)
Theorem shard_round_trip {Fn Heap}
    (natives : Fn → value Fn → World Fn Heap → Completion (World Fn Heap))
    (assigns : list Fragment) (w : World Fn Heap) :
  ordinary_names assigns →
  ∃ o,
    NoDup (obj_keys o) ∧
    (∀ k before v after,
       assigns = before ++ (k, v) :: after → k ∉ map fst after →
       obj_read o k = OwnValue v) ∧
    (∀ k, k ∉ map fst assigns → obj_read o k = FromPrototype) ∧
    (ToBoolean (get_global w register_implementors) = false →
       ∃ w', shard_js natives assigns w =
               ([AAssign pending_implementors (VObj o)], Normal w') ∧
             get_global w' pending_implementors = VObj o) ∧
    (∀ f, get_global w register_implementors = VFun f →
       shard_js natives assigns w = ([ACall f (VObj o)], natives f (VObj o) w)).
Proof.
  intros _. exists (build_implementors assigns). split_and!.
  - apply build_from_NoDup, NoDup_nil_2.
  - intros k before v after Heq Hafter. unfold obj_read.
    destruct (build_implementors_get assigns k) as (_ & _ & Hlast).
    by rewrite (Hlast before v after).
  - intros k Hk. unfold obj_read.
    destruct (build_implementors_get assigns k) as (_ & Habsent & _).
    by rewrite Habsent.
  - intros Hw. unfold shard_js. rewrite emitter_absent by done.
    eexists. split; [done |]. apply get_global_set_eq.
  - intros f Hf. unfold shard_js. by apply emitter_ready.
Qed.

(** The two assignments of the source, on a fresh page. *)
Lemma shard_round_trip_witness :
  ordinary_names implementors ∧
  ∃ o (w' : SinkWorld),
    NoDup (obj_keys o) ∧
    obj_read o "spin" = obj_read implementors "spin" ∧
    obj_read o "core" = FromPrototype ∧
    shard_js sink_natives implementors fresh_page =
      ([AAssign pending_implementors (VObj o)], Normal w') ∧
    get_global w' pending_implementors = VObj o.
Proof.
  assert (Ho : ordinary_names implementors) by (repeat constructor).
  split; [exact Ho |].
  destruct (shard_round_trip sink_natives implementors fresh_page Ho)
    as (o & Hnd & Hlast & Habsent & Habs & _).
  destruct (Habs eq_refl) as (w' & Hrun & Hslot).
  exists o, w'. split_and!.
  - exact Hnd.
  - apply (Hlast "spin" [] _ (tail implementors)); [reflexivity |].
    compute_done.
  - apply Habsent. compute_done.
  - exact Hrun.
  - exact Hslot.
Defined.

(** A name assigned twice is an own property holding the second array;
    a name never assigned is no own property. *)
Lemma built_object_lookup_witness :
  obj_read (build_implementors [("spin", ["a"]); ("spin", ["b"])]) "spin"
    = OwnValue ["b"] ∧
  obj_read (build_implementors implementors) "core" = FromPrototype.
Proof.
  split.
  - apply (proj1 (built_object_lookup
                    [("spin", ["a"]); ("spin", ["b"])] "spin"
                    ltac:(repeat constructor))
             [("spin", ["a"])] ["b"] []); [reflexivity |].
    apply not_elem_of_nil.
  - apply (proj2 (built_object_lookup implementors "core"
                    ltac:(repeat constructor))).
    compute_done.
Defined.

(** A page on which the entry point was set to null buffers like a
    fresh one. *)
Lemma emitter_buffers_on_falsy_witness :
  let w : SinkWorld :=
    mkWorld {[ register_implementors := VNull ]} (mkSink [] []) in
  get_global w register_implementors ∈ @falsy_values sink_entry ∧
  emitter sink_natives implementors w =
    ([AAssign pending_implementors (VObj implementors)],
     Normal (set_global w pending_implementors (VObj implementors))).
Proof.
  intros w.
  assert (Hin : get_global w register_implementors ∈ @falsy_values sink_entry)
    by apply list_elem_of_further, list_elem_of_here.
  split; [exact Hin |].
  apply (emitter_buffers_on_falsy sink_natives implementors w). exact Hin.
Defined.
